(** * Historias Infinitas: the turn orchestration of the narrative client

    A shallow embedding of the session controller ([App], the [processTurn]
    protocol and its handlers) and of the two service adapters
    ([generateStorySegment], [generateSceneImage] in
    [services/geminiService.ts]), followed by the properties of the
    specification that concern them.

    Conventions.
    - React state is an explicit record [State]; every [setX(v)] of the
      source is a function [setX v : State -> State], and a handler is the
      composition of its setters in source order.
    - An [async] function is cut at its [await]: the part before, and the
      continuation that runs when the promise settles.  Pending promises are
      kept in a [Config], and the environment (user, services) drives the
      session through [event]s.
    - Numbers that the schema declares [INTEGER] are [Z]; strings are
      [string]; [T | undefined] and [T | null] are [option T].
    - What the external services answer is an input of the model: the
      prompts sent to them do not influence the client and are left out,
      as are the theme fields, which only feed the prompt. *)

From Stdlib Require Import List ZArith String Ascii Bool Lia Permutation.
Import ListNotations.
Local Open Scope string_scope.
Local Open Scope Z_scope.
Local Open Scope list_scope.
Set Warnings "-register-all".

(** ** Data model ([types.ts]) *)

Record Choice := mkChoice { id : string; choice_text : string }.

Record GameTurn := mkTurn {
  text : string;
  imageUrl : option string;
  choices : list Choice
}.

Record StoryEngineResponse := mkResponse {
  narrative : string;
  hpChange : Z;
  inventoryAdd : list string;
  inventoryRemove : list string;
  visualDescription : string;
  isGameOver : bool;
  response_choices : list Choice
}.

(** ** JSON values, as [JSON.parse] produces them

    Numbers are restricted to integers, the only ones the schema admits. *)

Inductive json :=
| JNull
| JBool (b : bool)
| JNum (n : Z)
| JStr (s : string)
| JArr (items : list json)
| JObj (fields : list (string * json)).

(** Property read [o.k] on an object; [None] is [undefined]. *)
Fixpoint lookup (k : string) (fields : list (string * json)) : option json :=
  match fields with
  | [] => None
  | (k', v) :: rest => if String.eqb k k' then Some v else lookup k rest
  end.

Definition get (k : string) (v : json) : option json :=
  match v with
  | JObj fields => lookup k fields
  | _ => None
  end.

(** *** The response schema ([storySchema], lines 7-50)

    [decode] succeeds exactly on the values that have every required field
    with the declared type; it is the check "conforms to the schema". *)

Definition asString (v : option json) : option string :=
  match v with Some (JStr s) => Some s | _ => None end.

Definition asInteger (v : option json) : option Z :=
  match v with Some (JNum n) => Some n | _ => None end.

Definition asBoolean (v : option json) : option bool :=
  match v with Some (JBool b) => Some b | _ => None end.

Fixpoint traverse {A B} (f : A -> option B) (l : list A) : option (list B) :=
  match l with
  | [] => Some []
  | x :: xs =>
      match f x, traverse f xs with
      | Some y, Some ys => Some (y :: ys)
      | _, _ => None
      end
  end.

Definition asArray {B} (f : json -> option B) (v : option json)
  : option (list B) :=
  match v with Some (JArr items) => traverse f items | _ => None end.

Definition decodeChoice (v : json) : option Choice :=
  match asString (get "id" v), asString (get "text" v) with
  | Some i, Some t => Some (mkChoice i t)
  | _, _ => None
  end.

Definition decode (v : json) : option StoryEngineResponse :=
  match asString (get "narrative" v),
        asInteger (get "hpChange" v),
        asArray (fun x => asString (Some x)) (get "inventoryAdd" v),
        asArray (fun x => asString (Some x)) (get "inventoryRemove" v),
        asString (get "visualDescription" v),
        asBoolean (get "isGameOver" v),
        asArray decodeChoice (get "choices" v) with
  | Some n, Some h, Some a, Some r, Some d, Some g, Some c =>
      Some (mkResponse n h a r d g c)
  | _, _, _, _, _, _, _ => None
  end.

Definition conforms (v : json) : bool :=
  match decode v with Some _ => true | None => false end.

(** ** Story service adapter ([generateStorySegment], lines 52-119) *)

(** What [ai.models.generateContent] does: it throws, or it returns a
    response whose [text] may be undefined. *)
Inductive ApiOutcome :=
| ApiThrows
| ApiReturns (response_text : option string).

(** A settled promise. *)
Inductive Settled (A : Type) :=
| Resolved (value : A)
| Rejected.
Arguments Resolved {A} value.
Arguments Rejected {A}.

(** The object literal of lines 104-117. *)
Definition fallbackResponse : json :=
  JObj
    [ ("narrative",
       JStr "La niebla se espesa y tu mente se nubla... (Error de conexión con la IA, intenta recargar o elegir otra opción).");
      ("hpChange", JNum 0);
      ("inventoryAdd", JArr []);
      ("inventoryRemove", JArr []);
      ("visualDescription", JStr "foggy mystery void");
      ("isGameOver", JBool false);
      ("choices",
       JArr
         [ JObj [("id", JStr "retry"); ("text", JStr "Intentar de nuevo")];
           JObj [("id", JStr "wait"); ("text", JStr "Esperar un momento")];
           JObj [("id", JStr "run"); ("text", JStr "Huir en pánico")];
           JObj [("id", JStr "scream"); ("text", JStr "Gritar al vacío")] ]) ].

(** JavaScript truthiness of a string: [""] is falsy. *)
Definition truthy (s : string) : bool := negb (String.eqb s "").

Section StoryAdapter.

(** [JSON.parse]: [None] when it throws a [SyntaxError]. *)
Variable JSON_parse : string -> option json.

(** The [try] block, lines 86-100: [inl tt] is a thrown exception. *)
Definition generateStorySegment_try (o : ApiOutcome) : unit + json :=
  match o with
  | ApiThrows => inl tt
  | ApiReturns None => inl tt
  | ApiReturns (Some response_text) =>
      if truthy response_text then
        match JSON_parse response_text with
        | Some v => inr v
        | None => inl tt
        end
      else inl tt
  end.

(** The whole function: the [catch] of lines 101-118 returns the literal. *)
Definition generateStorySegment (o : ApiOutcome) : Settled json :=
  match generateStorySegment_try o with
  | inr v => Resolved v
  | inl _ => Resolved fallbackResponse
  end.

End StoryAdapter.

(** ** Scene image adapter ([generateSceneImage], lines 121-145) *)

(** The image call throws, or returns the parts of its first candidate
    (none when a link of [candidates?.[0]?.content?.parts] is missing);
    a part is given by the [data] of its [inlineData], if it has one. *)
Inductive ImageApiOutcome :=
| ImageApiThrows
| ImageApiReturns (parts : list (option string)).

Fixpoint firstInlineData (parts : list (option string)) : option string :=
  match parts with
  | [] => None
  | Some data :: _ => Some ("data:image/png;base64," ++ data)%string
  | None :: rest => firstInlineData rest
  end.

Definition generateSceneImage (o : ImageApiOutcome) : Settled (option string) :=
  match o with
  | ImageApiThrows => Resolved None
  | ImageApiReturns parts => Resolved (firstInlineData parts)
  end.

(** ** Session controller ([App], lines 29-197) *)

Inductive Mode := START | PLAYING | GAMEOVER.

Definition INITIAL_HP : Z := 100.

Record State := mkState {
  mode : Mode;
  hp : Z;
  inventory : list string;
  currentTurn : option GameTurn;
  isStoryLoading : bool;
  isImageLoading : bool;
  isTypingComplete : bool
}.

(** The values of the [useState] calls, lines 31-44. *)
Definition initialState : State :=
  mkState START INITIAL_HP [] None false false false.

Definition setMode (m : Mode) (s : State) : State :=
  mkState m (hp s) (inventory s) (currentTurn s)
          (isStoryLoading s) (isImageLoading s) (isTypingComplete s).

Definition setHp (h : Z) (s : State) : State :=
  mkState (mode s) h (inventory s) (currentTurn s)
          (isStoryLoading s) (isImageLoading s) (isTypingComplete s).

Definition setInventory (inv : list string) (s : State) : State :=
  mkState (mode s) (hp s) inv (currentTurn s)
          (isStoryLoading s) (isImageLoading s) (isTypingComplete s).

(** [setCurrentTurn] is also called with an updater ([prev => ...]), so it
    takes a function of the previous value. *)
Definition setCurrentTurn (f : option GameTurn -> option GameTurn)
  (s : State) : State :=
  mkState (mode s) (hp s) (inventory s) (f (currentTurn s))
          (isStoryLoading s) (isImageLoading s) (isTypingComplete s).

Definition setIsStoryLoading (b : bool) (s : State) : State :=
  mkState (mode s) (hp s) (inventory s) (currentTurn s)
          b (isImageLoading s) (isTypingComplete s).

Definition setIsImageLoading (b : bool) (s : State) : State :=
  mkState (mode s) (hp s) (inventory s) (currentTurn s)
          (isStoryLoading s) b (isTypingComplete s).

Definition setIsTypingComplete (b : bool) (s : State) : State :=
  mkState (mode s) (hp s) (inventory s) (currentTurn s)
          (isStoryLoading s) (isImageLoading s) b.

(** Statements in source order: [s |> f |> g] runs [f], then [g]. *)
Notation "s |> f" := (f s) (at level 45, left associativity, only parsing).

(** Line 70. *)
Definition areChoicesVisible (s : State) : bool :=
  negb (isStoryLoading s) && isTypingComplete s && negb (isImageLoading s).

(** [Array.prototype.includes] on an array of strings. *)
Definition includes (l : list string) (item : string) : bool :=
  existsb (String.eqb item) l.

(** *** [processTurn], lines 96-165 *)

(** Lines 104-106, up to the [await] of line 109. *)
Definition processTurn_start (s : State) : State :=
  s |> setIsStoryLoading true
    |> setIsTypingComplete false
    |> setIsImageLoading false.

(** Line 112. *)
Definition newHp (currentHp : Z) (storyData : StoryEngineResponse) : Z :=
  Z.min 100 (Z.max 0 (currentHp + hpChange storyData)).

(** Lines 116-118: one iteration of the [forEach]. *)
Definition pushNew (newInv : list string) (item : string) : list string :=
  if includes newInv item then newInv else newInv ++ [item].

(** Line 115: the items that are kept. *)
Definition retained (currentInv remove : list string) : list string :=
  filter (fun item => negb (includes remove item)) currentInv.

(** Lines 114-118, as a function of the two arrays read from [storyData]. *)
Definition updateInventory (currentInv remove add : list string)
  : list string :=
  fold_left pushNew add (retained currentInv remove).

Definition newInv (currentInv : list string) (storyData : StoryEngineResponse)
  : list string :=
  updateInventory currentInv (inventoryRemove storyData)
                  (inventoryAdd storyData).

(** Line 123. *)
Definition isTerminal (currentHp : Z) (storyData : StoryEngineResponse)
  : bool :=
  isGameOver storyData || (newHp currentHp storyData <=? 0).

(** Lines 112-157, the continuation of the [await]: the new state, and the
    description passed to [generateSceneImage] when an image is requested. *)
Definition processTurn_resume (currentHp : Z) (currentInv : list string)
  (storyData : StoryEngineResponse) (s : State) : State * option string :=
  let s1 := s |> setHp (newHp currentHp storyData)
              |> setInventory (newInv currentInv storyData) in
  if isTerminal currentHp storyData then
    (s1 |> setMode GAMEOVER
        |> setCurrentTurn (fun _ => Some (mkTurn (narrative storyData) None []))
        |> setIsStoryLoading false,
     None)
  else
    let s2 :=
      s1 |> setCurrentTurn
              (fun _ => Some (mkTurn (narrative storyData) None
                                     (response_choices storyData)))
         |> setIsStoryLoading false in
    if truthy (visualDescription storyData) then
      (s2 |> setIsImageLoading true, Some (visualDescription storyData))
    else (s2, None).

(** Lines 151-152, the [then] callback of the image promise. *)
Definition patchImage (url : option string) (prev : option GameTurn)
  : option GameTurn :=
  match prev with
  | Some t => Some (mkTurn (text t) url (choices t))
  | None => None
  end.

Definition onImage (url : option string) (s : State) : State :=
  s |> setCurrentTurn (patchImage url)
    |> setIsImageLoading false.

(** Line 155, the [catch] callback of the image promise. *)
Definition onImageError (s : State) : State :=
  s |> setIsImageLoading false.

(** Lines 159-164, the [catch] of [processTurn]; the [alert] is recorded
    by the caller of this function. *)
Definition processTurn_catch (s : State) : State :=
  s |> setMode START
    |> setIsStoryLoading false.

Definition criticalNotice : string :=
  "Hubo un error crítico conectando con el mundo. Intenta de nuevo.".

(** *** The other handlers *)

(** [handleStartGame], lines 83-90, past the guard on the theme. *)
Definition handleStartGame (s : State) : State :=
  s |> setMode PLAYING
    |> setIsStoryLoading true
    |> setHp INITIAL_HP
    |> setInventory []
    |> setCurrentTurn (fun _ => None)
    |> setIsTypingComplete false
    |> setIsImageLoading false.

(** [resetGame], lines 183-189. *)
Definition resetGame (s : State) : State :=
  s |> setMode START
    |> setHp INITIAL_HP
    |> setInventory []
    |> setCurrentTurn (fun _ => None)
    |> setIsStoryLoading false
    |> setIsImageLoading false
    |> setIsTypingComplete false.

(** [onTextComplete], lines 195-197. *)
Definition onTextComplete (s : State) : State :=
  s |> setIsTypingComplete true.

(** ** The session as a transition system

    A call of [processTurn] is pending from its [await] (line 109) until the
    story promise settles; it has captured its arguments [currentHp] and
    [currentInv].  An image request is pending from line 149 until its
    promise settles.  Calls are numbered in the order they are made.

    [liveCall] is ghost state: the number of the call that published the
    live turn, that is the identity of that turn.  The source has no such
    field; it is only used to state properties. *)

Record Call := mkCall {
  call_id : nat;
  currentHp : Z;
  currentInv : list string
}.

Record Config := mkConfig {
  ui : State;
  storyCalls : list Call;
  imageCalls : list nat;
  nextCall : nat;
  liveCall : option nat;
  alerts : list string
}.

Definition initialConfig : Config :=
  mkConfig initialState [] [] 0%nat None [].

Inductive event :=
| ClickStart
| ClickChoice (c : Choice)
| ClickReset
| TextRevealed
| StorySettles (k : nat) (storyData : StoryEngineResponse)
| TurnThrows (k : nat)
| ImageSettles (k : nat) (url : option string)
| ImageRejects (k : nat).

Fixpoint takeCall (k : nat) (l : list Call) : option (Call * list Call) :=
  match l with
  | [] => None
  | c :: rest =>
      if Nat.eqb (call_id c) k then Some (c, rest)
      else match takeCall k rest with
           | Some (found, rest') => Some (found, c :: rest')
           | None => None
           end
  end.

Fixpoint takeImage (k : nat) (l : list nat) : option (list nat) :=
  match l with
  | [] => None
  | j :: rest =>
      if Nat.eqb j k then Some rest
      else match takeImage k rest with
           | Some rest' => Some (j :: rest')
           | None => None
           end
  end.

Definition choice_eqb (a b : Choice) : bool :=
  String.eqb (id a) (id b) && String.eqb (choice_text a) (choice_text b).

Definition mode_eqb (a b : Mode) : bool :=
  match a, b with
  | START, START | PLAYING, PLAYING | GAMEOVER, GAMEOVER => true
  | _, _ => false
  end.

(** A call [processTurn(_, hp, inv, _, _)], run up to its [await]. *)
Definition callProcessTurn (hp0 : Z) (inv0 : list string) (c : Config)
  : Config :=
  mkConfig (processTurn_start (ui c))
           (storyCalls c ++ [mkCall (nextCall c) hp0 inv0])
           (imageCalls c) (S (nextCall c)) (liveCall c) (alerts c).

(** [handleChoice], lines 167-180. *)
Definition handleChoice (c : Config) : Config :=
  match currentTurn (ui c) with
  | None => c
  | Some _ => callProcessTurn (hp (ui c)) (inventory (ui c)) c
  end.

(** When the presentation layer offers an action: the start button is on
    the start screen and disabled while a story is loading (lines 288-291);
    a choice button exists for each choice of the live turn on the play
    screen while [areChoicesVisible] (lines 396-403); reset is on the play
    and the game-over screens (lines 326, 447).  No assumption is made on
    when the typewriter reports completion. *)
Definition offered (c : Config) (e : event) : bool :=
  match e with
  | ClickStart =>
      mode_eqb (mode (ui c)) START && negb (isStoryLoading (ui c))
  | ClickChoice ch =>
      mode_eqb (mode (ui c)) PLAYING && areChoicesVisible (ui c)
      && match currentTurn (ui c) with
         | Some t => existsb (choice_eqb ch) (choices t)
         | None => false
         end
  | ClickReset => negb (mode_eqb (mode (ui c)) START)
  | _ => true
  end.

(** One event.  [None]: the event cannot happen in [c] (the action is not
    offered, or the promise is not pending).

    [TurnThrows k] is an exception raised in the [try] block of call [k]
    after its [await].  The statements of that block that can throw (the
    reads and method calls of lines 112-118 on a value that is not of the
    declared type) all come before its first state update (line 120), so
    the [catch] runs on the state as the [await] finds it. *)
Definition step (c : Config) (e : event) : option Config :=
  if negb (offered c e) then None else
  match e with
  | ClickStart =>
      Some (callProcessTurn INITIAL_HP []
              (mkConfig (handleStartGame (ui c)) (storyCalls c) (imageCalls c)
                        (nextCall c) None (alerts c)))
  | ClickChoice _ => Some (handleChoice c)
  | ClickReset =>
      Some (mkConfig (resetGame (ui c)) (storyCalls c) (imageCalls c)
                     (nextCall c) None (alerts c))
  | TextRevealed =>
      Some (mkConfig (onTextComplete (ui c)) (storyCalls c) (imageCalls c)
                     (nextCall c) (liveCall c) (alerts c))
  | StorySettles k storyData =>
      match takeCall k (storyCalls c) with
      | None => None
      | Some (call, rest) =>
          let (s', request) :=
            processTurn_resume (currentHp call) (currentInv call)
                               storyData (ui c) in
          Some (mkConfig s' rest
                  (match request with
                   | Some _ => imageCalls c ++ [k]
                   | None => imageCalls c
                   end)
                  (nextCall c) (Some k) (alerts c))
      end
  | TurnThrows k =>
      match takeCall k (storyCalls c) with
      | None => None
      | Some (_, rest) =>
          Some (mkConfig (processTurn_catch (ui c)) rest (imageCalls c)
                         (nextCall c) (liveCall c)
                         (alerts c ++ [criticalNotice]))
      end
  | ImageSettles k url =>
      match takeImage k (imageCalls c) with
      | None => None
      | Some rest =>
          Some (mkConfig (onImage url (ui c)) (storyCalls c) rest
                         (nextCall c) (liveCall c) (alerts c))
      end
  | ImageRejects k =>
      match takeImage k (imageCalls c) with
      | None => None
      | Some rest =>
          Some (mkConfig (onImageError (ui c)) (storyCalls c) rest
                         (nextCall c) (liveCall c) (alerts c))
      end
  end.

Fixpoint run (c : Config) (trace : list event) : option Config :=
  match trace with
  | [] => Some c
  | e :: rest =>
      match step c e with
      | Some c' => run c' rest
      | None => None
      end
  end.

(** The configurations of executions from the initial one. *)
Definition reachable (c : Config) : Prop :=
  exists trace, run initialConfig trace = Some c.

(** ** The turn engine as the specification words it

    These definitions follow the specification (section 4.1), not the
    source; the theorems below compare them with [newHp] and [newInv]. *)

Definition clamp (x lo hi : Z) : Z :=
  if x <? lo then lo else if hi <? x then hi else x.

(** The items of a list in order, each at its first occurrence only. *)
Fixpoint firstOccurrences (l : list string) : list string :=
  match l with
  | [] => []
  | x :: xs => x :: filter (fun y => negb (String.eqb x y)) (firstOccurrences xs)
  end.

(** "(inventory - itemsLost) U itemsGained, preserving prior order for
    retained items and appending new items in the order listed". *)
Definition spec_newInventory (inv lost gained : list string) : list string :=
  let kept := filter (fun item => negb (includes lost item)) inv in
  kept ++ firstOccurrences (filter (fun item => negb (includes kept item)) gained).

(** ** Definitions used by the statements *)

(** The response that [fallbackResponse] denotes. *)
Definition fallbackData : StoryEngineResponse :=
  mkResponse
    "La niebla se espesa y tu mente se nubla... (Error de conexión con la IA, intenta recargar o elegir otra opción)."
    0 [] [] "foggy mystery void" false
    [ mkChoice "retry" "Intentar de nuevo";
      mkChoice "wait" "Esperar un momento";
      mkChoice "run" "Huir en pánico";
      mkChoice "scream" "Gritar al vacío" ].

(** The underlying call failed: it threw, or it yielded no text. *)
Definition callFailed (o : ApiOutcome) : bool :=
  match o with
  | ApiThrows => true
  | ApiReturns None => true
  | ApiReturns (Some response_text) => negb (truthy response_text)
  end.

(** A fragment of [JSON.parse] for the examples: the two texts it knows are
    parsed as [JSON.parse] parses them, any other text is reported as
    malformed. *)
Definition parseKnown (t : string) : option json :=
  if String.eqb t "{}" then Some (JObj [])
  else if String.eqb t "null" then Some JNull
  else None.

(** *** Claims as the specification states them *)

(** A payload that parses but violates the schema is answered with the
    fallback. *)
Definition schema_violation_falls_back (JSON_parse : string -> option json)
  : Prop :=
  forall response_text v,
    truthy response_text = true ->
    JSON_parse response_text = Some v ->
    conforms v = false ->
    generateStorySegment JSON_parse (ApiReturns (Some response_text))
    = Resolved fallbackResponse.

(** Stale-turn guard: a late image result changes the live turn only if it
    was requested for that very turn. *)
Definition stale_turn_guard : Prop :=
  forall c k url c',
    reachable c ->
    step c (ImageSettles k url) = Some c' ->
    liveCall c <> Some k ->
    currentTurn (ui c') = currentTurn (ui c).

(** Fatal failure: the handler discards health, inventory and turn. *)
Definition failure_discards_state : Prop :=
  forall c k c',
    reachable c ->
    step c (TurnThrows k) = Some c' ->
    hp (ui c') = INITIAL_HP
    /\ inventory (ui c') = []
    /\ currentTurn (ui c') = None.

(** *** Example sessions *)

Definition cave : StoryEngineResponse :=
  mkResponse "Entras en la cueva." (-30) ["antorcha"] [] "a dark cave" false
    [ mkChoice "a" "Avanzar"; mkChoice "b" "Volver";
      mkChoice "c" "Gritar"; mkChoice "d" "Esperar" ].

Definition ship : StoryEngineResponse :=
  mkResponse "Despiertas en una nave." 0 [] [] "a spaceship" false
    [ mkChoice "a" "Explorar"; mkChoice "b" "Dormir";
      mkChoice "c" "Llamar"; mkChoice "d" "Huir" ].

Definition caveImage : string := "data:image/png;base64,Y2F2ZQ==".

(** A game is started and its first turn shown; the player resets and
    starts another game, whose first turn is shown while the image of the
    first game is still pending. *)
Definition restartedSession : list event :=
  [ ClickStart; StorySettles 0 cave; ClickReset;
    ClickStart; StorySettles 1 ship ].

Definition afterRestart : Config :=
  Eval vm_compute in
    match run initialConfig restartedSession with
    | Some c => c
    | None => initialConfig
    end.

(** A turn is played to the end and the player picks a choice. *)
Definition secondTurnChosen : list event :=
  [ ClickStart; StorySettles 0 cave; ImageSettles 0 (Some caveImage);
    TextRevealed; ClickChoice (mkChoice "a" "Avanzar") ].

Definition awaitingSecondTurn : Config :=
  Eval vm_compute in
    match run initialConfig secondTurnChosen with
    | Some c => c
    | None => initialConfig
    end.

(** *** Invariants of executions *)

Definition callOk (call : Call) : Prop :=
  0 <= currentHp call <= 100 /\ NoDup (currentInv call).

Definition sessionOk (c : Config) : Prop :=
  0 <= hp (ui c) <= 100
  /\ NoDup (inventory (ui c))
  /\ Forall callOk (storyCalls c)
  /\ Forall (fun call => (call_id call < nextCall c)%nat) (storyCalls c).

(** ** Further parts of the source *)

(** *** Theme selection (part_000 lines 34-35, 80-92, 174, 264, 282, 291)

    The two theme fields live beside [State]; they reach the services only
    through the prompt, so the transition system above leaves them out. *)

Record Themes := mkThemes { theme : string; customTheme : string }.

Definition initialThemes : Themes := mkThemes "" "".

(** Line 264, the click on a suggested theme. *)
Definition clickSuggestion (t : string) (ts : Themes) : Themes :=
  mkThemes t t.

(** Line 282, typing in the free-text field. *)
Definition typeTheme (v : string) (ts : Themes) : Themes :=
  mkThemes (theme ts) v.

(** Line 291: the start button is disabled. *)
Definition startDisabled (ts : Themes) (s : State) : bool :=
  negb (truthy (customTheme ts)) || isStoryLoading s.

Section ThemeSelection.

(** [String.prototype.trim]. *)
Variable trim : string -> string.

(** Line 80. *)
Definition selectedTheme (ts : Themes) : string :=
  if truthy (trim (customTheme ts)) then trim (customTheme ts) else theme ts.

(** [handleStartGame] on the theme fields, lines 80-92: [None] when the
    guard of line 81 returns; otherwise the theme passed to [processTurn]
    and the fields after line 87. *)
Definition startWithTheme (ts : Themes) : option (string * Themes) :=
  if truthy (selectedTheme ts) then
    Some (selectedTheme ts, mkThemes (theme ts) "")
  else None.

End ThemeSelection.

(** Line 174: the theme [handleChoice] passes to [processTurn]. *)
Definition choiceTheme (ts : Themes) : string :=
  if truthy (theme ts) then theme ts else customTheme ts.

(** A fragment of [trim] for the examples: it strips the ASCII white space
    (tab, line feed, vertical tab, form feed, carriage return, space), and
    so agrees with [trim] on texts that hold no other white space. *)
Definition isAsciiSpace (a : ascii) : bool :=
  let n := nat_of_ascii a in
  (Nat.leb 9 n && Nat.leb n 13) || Nat.eqb n 32.

Fixpoint dropSpaces (l : list ascii) : list ascii :=
  match l with
  | a :: rest => if isAsciiSpace a then dropSpaces rest else l
  | [] => []
  end.

Definition trimAscii (s : string) : string :=
  string_of_list_ascii
    (rev (dropSpaces (rev (dropSpaces (list_ascii_of_string s))))).

(** *** The menu of suggested themes (part_000 lines 22-27, 53-56, 191-192) *)

Definition THEME_POOL : list string :=
  [ "Fantasía Oscura"; "Cyberpunk 2077"; "Apocalipsis Zombie";
    "Misterio Victoriano"; "Piratas del Espacio"; "Samurai Feudal";
    "Terror Lovecraftiano"; "Western Mágico"; "Hackers de los 90";
    "Mitología Griega"; "Superhéroes Realistas"; "Exploración Submarina";
    "Steampunk"; "Supervivencia en Isla Desierta"; "Guerra de IAs";
    "Vampiros Modernos" ].

(** [shuffled.slice(0, 4)], where [shuffled] is what the sort with a random
    comparator made of a copy of the pool. *)
Definition suggestedThemes (shuffled : list string) : list string :=
  firstn 4 shuffled.

(** *** Texts derived from the state *)

(** [inventory.join(", ") || fallback]: the inventory line of the prompt
    (geminiService.ts line 77, with "Vacío") and of the game-over screen
    (part_000 line 443, with "Ninguno"). *)
Definition joinOr (fallback : string) (inv : list string) : string :=
  let joined := String.concat ", " inv in
  if truthy joined then joined else fallback.



(** part_000 line 442: the cause shown on the game-over screen. *)
Definition deathCause : string := "Muerte por heridas (HP: 0)".

Definition gameOverCause (s : State) : string :=
  if hp s <=? 0 then deathCause else "Final de la trama".

(** The second game of [restartedSession] once its text is revealed: the
    image of the first game and the image of the live turn are pending. *)
Definition restartRevealed : Config :=
  Eval vm_compute in
    match step afterRestart TextRevealed with
    | Some c => c
    | None => afterRestart
    end.

(** * Properties *)

(** ** Lists of item names *)

Section Items.

Lemma includes_In (l : list string) (x : string) :
  includes l x = true <-> In x l.
Proof.
  unfold includes. rewrite existsb_exists. split.
  - intros (y & Hy & Heq). apply String.eqb_eq in Heq. now subst.
  - intros H. exists x. split; [assumption | apply String.eqb_refl].
Qed.

Lemma includes_false (l : list string) (x : string) :
  includes l x = false <-> ~ In x l.
Proof.
  rewrite <- includes_In. destruct (includes l x); split; congruence.
Qed.

Lemma includes_app (l1 l2 : list string) (x : string) :
  includes (l1 ++ l2) x = includes l1 x || includes l2 x.
Proof. unfold includes. apply existsb_app. Qed.

Lemma filter_twice {A} (p q : A -> bool) (l : list A) :
  filter p (filter q l) = filter (fun y => q y && p y) l.
Proof.
  induction l as [| a l IH]; simpl; [reflexivity |].
  destruct (q a); simpl; [destruct (p a) |]; now rewrite IH.
Qed.

Lemma filter_swap {A} (p q : A -> bool) (l : list A) :
  filter p (filter q l) = filter q (filter p l).
Proof.
  rewrite !filter_twice. apply filter_ext. intros a. apply andb_comm.
Qed.

Lemma filter_absorb {A} (p q : A -> bool) (l : list A) :
  (forall y, p y = true -> q y = true) ->
  filter p (filter q l) = filter p l.
Proof.
  intros H. rewrite filter_twice. apply filter_ext. intros a.
  specialize (H a). destruct (p a), (q a); simpl; auto.
Qed.

Lemma filter_all {A} (p : A -> bool) (l : list A) :
  (forall y, In y l -> p y = true) -> filter p l = l.
Proof.
  induction l as [| a l IH]; simpl; intros H; [reflexivity |].
  rewrite (H a (or_introl eq_refl)). f_equal. apply IH. auto.
Qed.

Lemma firstOccurrences_filter (p : string -> bool) (l : list string) :
  filter p (firstOccurrences l) = firstOccurrences (filter p l).
Proof.
  induction l as [| x xs IH]; simpl; [reflexivity |].
  destruct (p x) eqn:Hpx; simpl.
  - f_equal. rewrite filter_swap. now rewrite IH.
  - rewrite <- IH. apply filter_absorb.
    intros y Hy. destruct (String.eqb_spec x y) as [-> | _]; [congruence | reflexivity].
Qed.

Lemma firstOccurrences_In (l : list string) (x : string) :
  In x (firstOccurrences l) <-> In x l.
Proof.
  induction l as [| a l IH]; simpl; [tauto |].
  rewrite filter_In, IH. destruct (String.eqb_spec a x); simpl; intuition congruence.
Qed.

Lemma firstOccurrences_NoDup (l : list string) : NoDup (firstOccurrences l).
Proof.
  induction l as [| a l IH]; simpl; constructor.
  - rewrite filter_In. intros [_ H]. now rewrite String.eqb_refl in H.
  - now apply NoDup_filter.
Qed.

(** The [forEach] of lines 116-118 appends, in order, the first occurrence
    of every item that the array does not hold yet. *)
Lemma forEach_pushNew (items acc : list string) :
  fold_left pushNew items acc
  = acc ++ firstOccurrences (filter (fun i => negb (includes acc i)) items).
Proof.
  revert acc. induction items as [| x xs IH]; intros acc; simpl.
  - now rewrite app_nil_r.
  - unfold pushNew at 2. destruct (includes acc x) eqn:Hx; simpl.
    + apply IH.
    + rewrite IH, <- app_assoc. simpl. do 2 f_equal.
      rewrite firstOccurrences_filter, filter_twice. f_equal.
      apply filter_ext. intros a. rewrite includes_app. simpl.
      unfold includes at 2. simpl. rewrite orb_false_r, negb_orb.
      now rewrite String.eqb_sym.
Qed.

Lemma pushNew_NoDup (acc : list string) (x : string) :
  NoDup acc -> NoDup (pushNew acc x).
Proof.
  intros H. unfold pushNew. destruct (includes acc x) eqn:Hx; [assumption |].
  apply includes_false in Hx.
  apply NoDup_app; [assumption | repeat constructor; intros [] |].
  intros a Ha [<- | []]. contradiction.
Qed.

Lemma forEach_pushNew_NoDup (items acc : list string) :
  NoDup acc -> NoDup (fold_left pushNew items acc).
Proof.
  revert acc. induction items as [| x xs IH]; intros acc H; simpl;
    [assumption | apply IH, pushNew_NoDup, H].
Qed.

Lemma updateInventory_NoDup (inv remove add : list string) :
  NoDup inv -> NoDup (updateInventory inv remove add).
Proof.
  intros H. unfold updateInventory, retained.
  now apply forEach_pushNew_NoDup, NoDup_filter.
Qed.

Lemma updateInventory_spec (inv remove add : list string) :
  updateInventory inv remove add = spec_newInventory inv remove add.
Proof.
  unfold updateInventory, retained, spec_newInventory. apply forEach_pushNew.
Qed.

Lemma updateInventory_In (inv remove add : list string) (x : string) :
  In x (updateInventory inv remove add)
  <-> (In x inv /\ ~ In x remove) \/ In x add.
Proof.
  unfold updateInventory, retained.
  rewrite forEach_pushNew, in_app_iff, firstOccurrences_In.
  repeat (rewrite filter_In || rewrite negb_true_iff || rewrite includes_false).
  destruct (in_dec string_dec x inv), (in_dec string_dec x remove); tauto.
Qed.

(** Which items are removed depends only on the items of [remove] that the
    inventory holds. *)
Lemma updateInventory_remove_ext (inv remove remove' add : list string) :
  (forall y, In y inv -> (In y remove <-> In y remove')) ->
  updateInventory inv remove add = updateInventory inv remove' add.
Proof.
  intros H. unfold updateInventory, retained. f_equal.
  induction inv as [| a inv IH]; simpl; [reflexivity |].
  assert (Ha : includes remove a = includes remove' a).
  { specialize (H a (or_introl eq_refl)). rewrite <- !includes_In in H.
    destruct (includes remove a), (includes remove' a); intuition congruence. }
  rewrite Ha, IH; [reflexivity |]. intros y Hy. apply H. now right.
Qed.

End Items.

(** ** The turn engine (specification, section 4.1) *)

Section TurnEngine.

Variables (currentHp : Z) (currentInv : list string).
Variable storyData : StoryEngineResponse.
Variable s : State.

Lemma newHp_clamp : newHp currentHp storyData = clamp (currentHp + hpChange storyData) 0 100.
Proof.
  unfold newHp, clamp.
  destruct (Z.ltb_spec (currentHp + hpChange storyData) 0),
           (Z.ltb_spec 100 (currentHp + hpChange storyData)); lia.
Qed.

Lemma newHp_range : 0 <= newHp currentHp storyData <= 100.
Proof. unfold newHp. lia. Qed.

Lemma resume_hp :
  hp (fst (processTurn_resume currentHp currentInv storyData s))
  = newHp currentHp storyData.
Proof.
  unfold processTurn_resume.
  destruct (isTerminal currentHp storyData);
    [| destruct (truthy (visualDescription storyData))]; reflexivity.
Qed.

Lemma resume_inventory :
  inventory (fst (processTurn_resume currentHp currentInv storyData s))
  = newInv currentInv storyData.
Proof.
  unfold processTurn_resume.
  destruct (isTerminal currentHp storyData);
    [| destruct (truthy (visualDescription storyData))]; reflexivity.
Qed.

(** C5.  Applying a story response sets the health to
    [clamp (health + healthDelta) 0 100]; the result lies in [0, 100]
    whatever the size and sign of the delta. *)
Theorem health_is_clamped :
  let s' := fst (processTurn_resume currentHp currentInv storyData s) in
  hp s' = clamp (currentHp + hpChange storyData) 0 100
  /\ 0 <= hp s' <= 100.
Proof.
  cbv zeta. rewrite resume_hp. split; [apply newHp_clamp | apply newHp_range].
Qed.

(** C4.  The turn is terminal exactly when the response is marked
    [isGameOver] or the clamped new health is 0.  A terminal turn sets the
    mode to [GAMEOVER], carries the narrative with no image and no choices,
    and requests no image; any other turn leaves the mode as it is and
    carries the choices of the response. *)
Theorem terminal_turn :
  let result := processTurn_resume currentHp currentInv storyData s in
  let terminal :=
    isGameOver storyData
    || (clamp (currentHp + hpChange storyData) 0 100 =? 0) in
  isTerminal currentHp storyData = terminal
  /\ if terminal then
       mode (fst result) = GAMEOVER
       /\ currentTurn (fst result) = Some (mkTurn (narrative storyData) None [])
       /\ snd result = None
     else
       mode (fst result) = mode s
       /\ currentTurn (fst result)
          = Some (mkTurn (narrative storyData) None (response_choices storyData)).
Proof.
  cbv zeta. rewrite <- newHp_clamp.
  assert (Hterm : isTerminal currentHp storyData
                  = isGameOver storyData || (newHp currentHp storyData =? 0)).
  { unfold isTerminal. f_equal. pose proof newHp_range.
    destruct (Z.leb_spec (newHp currentHp storyData) 0),
             (Z.eqb_spec (newHp currentHp storyData) 0); lia. }
  split; [exact Hterm |]. rewrite <- Hterm.
  unfold processTurn_resume.
  destruct (isTerminal currentHp storyData); [repeat split |].
  destruct (truthy (visualDescription storyData)); split; reflexivity.
Qed.

End TurnEngine.

(** The scenarios of the specification (section 8): from full health a
    response that costs 30 points and gives a torch leaves 70 points, the
    torch and the mode as it is; at 20 points a response that costs 25,
    not marked as the end, ends the game with no choices. *)
Example scenario_torch :
  let s := setMode PLAYING initialState in
  let s' := fst (processTurn_resume 100 [] cave s) in
  hp s' = 70 /\ inventory s' = ["antorcha"] /\ mode s' = PLAYING.
Proof. repeat split. Qed.

Example scenario_lethal :
  let s := setMode PLAYING initialState in
  let wound := mkResponse "Caes." (-25) [] [] "a fall" false
                          (response_choices cave) in
  processTurn_resume 20 [] wound s
  = (mkState GAMEOVER 0 [] (Some (mkTurn "Caes." None [])) false false false,
     None).
Proof. reflexivity. Qed.

Section Inventory.

Variable inv : list string.
Variable storyData : StoryEngineResponse.

Lemma count_occ_filter (p : string -> bool) (l : list string) (x : string) :
  count_occ string_dec (filter p l) x
  = if p x then count_occ string_dec l x else 0%nat.
Proof.
  induction l as [| a l IH]; simpl; [now destruct (p x) |].
  destruct (string_dec a x) as [-> | Hne].
  - destruct (p x); simpl; [destruct (string_dec x x); congruence | exact IH].
  - destruct (p a); simpl; [destruct (string_dec a x); congruence | exact IH].
Qed.

Lemma retained_not_appended (kept gained : list string) (x : string) :
  In x kept ->
  ~ In x (firstOccurrences
            (filter (fun item => negb (includes kept item)) gained)).
Proof.
  intros Hx. rewrite firstOccurrences_In, filter_In, negb_true_iff.
  rewrite includes_false. tauto.
Qed.

(** C6.  The new inventory is (inventory minus itemsLost) union
    itemsGained: the retained items in their prior order, followed by the
    new items in the order of itemsGained.  An item that is retained is not
    added again, and naming an item that the inventory does not hold among
    the lost ones changes nothing. *)
Theorem inventory_update :
  let lost := inventoryRemove storyData in
  let gained := inventoryAdd storyData in
  newInv inv storyData = spec_newInventory inv lost gained
  /\ (forall x, In x (newInv inv storyData)
                <-> (In x inv /\ ~ In x lost) \/ In x gained)
  /\ (forall x, In x (retained inv lost) ->
                count_occ string_dec (newInv inv storyData) x
                = count_occ string_dec inv x)
  /\ (forall x, ~ In x inv ->
                updateInventory inv (x :: lost) gained = newInv inv storyData).
Proof.
  intros lost gained. unfold newInv. fold lost gained.
  split; [| split; [| split]].
  - apply updateInventory_spec.
  - intros x. apply updateInventory_In.
  - intros x Hx. rewrite updateInventory_spec. unfold spec_newInventory.
    unfold retained in Hx. rewrite count_occ_app.
    apply (retained_not_appended _ gained) in Hx as Hnew.
    apply (count_occ_not_In string_dec) in Hnew. rewrite Hnew, Nat.add_0_r.
    rewrite count_occ_filter. apply filter_In in Hx as [_ ->]. reflexivity.
  - intros x Hx. apply updateInventory_remove_ext. intros y Hy. simpl.
    split; [| tauto]. intros [<- | H]; [contradiction | exact H].
Qed.

(** C7.  The inventory that results from applying a response to a
    duplicate-free inventory has no duplicates, whatever the overlap
    between the inventory, itemsGained and itemsLost, and whatever repeats
    inside itemsGained. *)
Theorem inventory_no_duplicates :
  NoDup inv -> NoDup (newInv inv storyData).
Proof. apply updateInventory_NoDup. Qed.

End Inventory.

Lemma inventory_no_duplicates_witness :
  NoDup ["soga"; "llave"]
  /\ NoDup (newInv ["soga"; "llave"]
              (mkResponse "" 0 ["antorcha"; "llave"; "antorcha"; "soga"]
                          ["soga"; "mapa"] "" false [])).
Proof.
  assert (H : NoDup ["soga"; "llave"]).
  { repeat constructor; simpl; intuition discriminate. }
  split; [exact H | exact (inventory_no_duplicates _ _ H)].
Defined.

(** ** The story service adapter (specification, sections 4.2 and 6) *)

Section StoryAdapterProperties.

Variable JSON_parse : string -> option json.

Lemma fallbackResponse_decodes : decode fallbackResponse = Some fallbackData.
Proof. reflexivity. Qed.

(** The adapter never rejects: every outcome of the call, and every text,
    resolves to a value. *)
Lemma generateStorySegment_resolves (o : ApiOutcome) :
  exists v, generateStorySegment JSON_parse o = Resolved v.
Proof.
  unfold generateStorySegment.
  destruct (generateStorySegment_try JSON_parse o); eauto.
Qed.

(** The [try] block on a text that is not empty: the outcome of the
    parser, whatever the value. *)
Lemma try_parses_text (response_text : string) :
  truthy response_text = true ->
  generateStorySegment_try JSON_parse (ApiReturns (Some response_text))
  = match JSON_parse response_text with
    | Some v => inr v
    | None => inl tt
    end.
Proof. intros Ht. unfold generateStorySegment_try. now rewrite Ht. Qed.

(** C2.  When the underlying call throws or yields no text, the adapter
    does not reject: it resolves to the fixed fallback response, which is
    well formed and has [hpChange = 0], nothing to add to or remove from
    the inventory, [isGameOver = false], the connection-fog narrative and
    exactly four fixed recovery choices. *)
Theorem story_failure_falls_back (o : ApiOutcome) :
  callFailed o = true ->
  generateStorySegment JSON_parse o = Resolved fallbackResponse
  /\ exists r,
       decode fallbackResponse = Some r
       /\ hpChange r = 0
       /\ inventoryAdd r = [] /\ inventoryRemove r = []
       /\ isGameOver r = false
       /\ narrative r = narrative fallbackData
       /\ response_choices r
          = [ mkChoice "retry" "Intentar de nuevo";
              mkChoice "wait" "Esperar un momento";
              mkChoice "run" "Huir en pánico";
              mkChoice "scream" "Gritar al vacío" ]
       /\ List.length (response_choices r) = 4%nat.
Proof.
  intros Hfail. split.
  - unfold generateStorySegment, generateStorySegment_try.
    destruct o as [| [t |]]; simpl in Hfail; try reflexivity.
    apply negb_true_iff in Hfail. now rewrite Hfail.
  - exists fallbackData. repeat split.
Qed.

(** X4.  The controller treats the fallback as an ordinary turn: a player
    who is alive keeps health and inventory, the game goes on with the four
    recovery choices, and an image is requested. *)
Lemma fallback_turn_is_ordinary (currentHp : Z) (currentInv : list string)
  (s : State) :
  0 < currentHp <= 100 ->
  processTurn_resume currentHp currentInv fallbackData s
  = (mkState (mode s) currentHp currentInv
             (Some (mkTurn (narrative fallbackData) None
                           (response_choices fallbackData)))
             false true (isTypingComplete s),
     Some "foggy mystery void").
Proof.
  intros Hhp. unfold processTurn_resume, isTerminal, newHp, newInv.
  unfold updateInventory, retained. simpl.
  rewrite Z.add_0_r, Z.max_r, Z.min_r by lia.
  destruct (Z.leb_spec currentHp 0); [lia |]. simpl.
  rewrite filter_all by reflexivity. reflexivity.
Qed.

(** C3, as the code has it.  A text that is not empty is parsed and the
    value is returned as it is, with no check against the schema; the
    fallback is returned when the text does not parse. *)
Theorem story_payload_not_validated (response_text : string) :
  truthy response_text = true ->
  generateStorySegment JSON_parse (ApiReturns (Some response_text))
  = Resolved match JSON_parse response_text with
             | Some v => v
             | None => fallbackResponse
             end.
Proof.
  intros Ht. unfold generateStorySegment.
  rewrite (try_parses_text _ Ht). now destruct (JSON_parse response_text).
Qed.

(** The claim as stated fails for every parser that, as [JSON.parse] does,
    reads the text of an empty object as the empty object. *)
Lemma empty_object_passes_through :
  JSON_parse "{}" = Some (JObj []) ->
  generateStorySegment JSON_parse (ApiReturns (Some "{}")) = Resolved (JObj [])
  /\ conforms (JObj []) = false
  /\ ~ schema_violation_falls_back JSON_parse.
Proof.
  intros Hparse.
  assert (Hgen : generateStorySegment JSON_parse (ApiReturns (Some "{}"))
                 = Resolved (JObj [])).
  { unfold generateStorySegment.
    rewrite try_parses_text by reflexivity. now rewrite Hparse. }
  repeat split; [exact Hgen |].
  intros Hclaim.
  specialize (Hclaim "{}" (JObj []) eq_refl Hparse eq_refl).
  rewrite Hgen in Hclaim. discriminate Hclaim.
Qed.

End StoryAdapterProperties.

Lemma story_failure_falls_back_witness :
  callFailed ApiThrows = true
  /\ generateStorySegment parseKnown ApiThrows = Resolved fallbackResponse.
Proof.
  split; [reflexivity |].
  exact (proj1 (story_failure_falls_back parseKnown ApiThrows eq_refl)).
Defined.

Lemma story_payload_not_validated_witness :
  truthy "{}" = true
  /\ generateStorySegment parseKnown (ApiReturns (Some "{}"))
     = Resolved (JObj []).
Proof.
  split; [reflexivity |].
  exact (story_payload_not_validated parseKnown "{}" eq_refl).
Defined.

(** Counterexample to C3 as stated: the text of an empty object parses,
    has none of the required fields, and is returned to the caller. *)
Lemma schema_violation_reaches_caller :
  parseKnown "{}" = Some (JObj [])
  /\ conforms (JObj []) = false
  /\ generateStorySegment parseKnown (ApiReturns (Some "{}"))
     = Resolved (JObj [])
  /\ Resolved (JObj []) <> Resolved fallbackResponse
  /\ ~ schema_violation_falls_back parseKnown.
Proof.
  destruct (empty_object_passes_through parseKnown eq_refl) as (H1 & H2 & H3).
  repeat split; try assumption. discriminate.
Qed.

(** ** The session controller (specification, sections 4.4, 4.5 and 5) *)

(** *** Invariants of executions *)

Ltac session_ok := split; [| split; [| split]]; simpl; try assumption.

Lemma takeCall_Forall (P : Call -> Prop) (k : nat) (l rest : list Call)
  (call : Call) :
  takeCall k l = Some (call, rest) -> Forall P l -> P call /\ Forall P rest.
Proof.
  revert rest. induction l as [| a l IH]; simpl; intros rest Htake Hall;
    [discriminate |].
  inversion Hall as [| ? ? Ha Hl]; subst.
  destruct (Nat.eqb (call_id a) k).
  - injection Htake as <- <-. now split.
  - destruct (takeCall k l) as [[found rest'] |]; [| discriminate].
    injection Htake as <- <-.
    destruct (IH rest' eq_refl Hl) as [Hfound Hrest]. split; auto.
Qed.

(** The call made last is found behind the older ones. *)
Lemma takeCall_newest (n : nat) (hp0 : Z) (inv0 : list string)
  (l : list Call) :
  Forall (fun call => (call_id call < n)%nat) l ->
  takeCall n (l ++ [mkCall n hp0 inv0]) = Some (mkCall n hp0 inv0, l).
Proof.
  induction l as [| a l IH]; simpl; intros Hall.
  - now rewrite Nat.eqb_refl.
  - inversion Hall as [| ? ? Ha Hl]; subst.
    destruct (Nat.eqb_spec (call_id a) n) as [Heq | _]; [lia |].
    now rewrite (IH Hl).
Qed.

Lemma callProcessTurn_ok (hp0 : Z) (inv0 : list string) (c : Config) :
  0 <= hp0 <= 100 -> NoDup inv0 -> sessionOk c ->
  sessionOk (callProcessTurn hp0 inv0 c).
Proof.
  intros Hhp Hinv (H1 & H2 & H3 & H4). session_ok.
  - apply Forall_app. split; [assumption |].
    constructor; [| constructor]. now split.
  - apply Forall_app. split.
    + eapply Forall_impl; [| exact H4]. simpl. intros a Ha. lia.
    + constructor; [simpl; lia | constructor].
Qed.

Lemma step_ok (c c' : Config) (e : event) :
  step c e = Some c' -> sessionOk c -> sessionOk c'.
Proof.
  unfold step. destruct (negb (offered c e)); [discriminate |].
  intros Hstep Hok. pose proof Hok as (Hhp & Hinv & Hcalls & Hids).
  destruct e; simpl in Hstep.
  - injection Hstep as <-. apply callProcessTurn_ok.
    + unfold INITIAL_HP. lia.
    + constructor.
    + session_ok; [unfold INITIAL_HP; lia | constructor].
  - injection Hstep as <-. unfold handleChoice.
    destruct (currentTurn (ui c)); [| assumption].
    now apply callProcessTurn_ok.
  - injection Hstep as <-. session_ok; [unfold INITIAL_HP; lia | constructor].
  - injection Hstep as <-. session_ok.
  - destruct (takeCall k (storyCalls c)) as [[call rest] |] eqn:Htake;
      [| discriminate].
    destruct (takeCall_Forall _ _ _ _ _ Htake Hcalls) as [[Hc1 Hc2] Hrest].
    destruct (takeCall_Forall _ _ _ _ _ Htake Hids) as [_ Hrest'].
    pose proof (resume_hp (currentHp call) (currentInv call) storyData (ui c))
      as Hh.
    pose proof (resume_inventory (currentHp call) (currentInv call) storyData
                                 (ui c)) as Hi.
    destruct (processTurn_resume _ _ _ _) as [s' request].
    injection Hstep as <-. simpl in Hh, Hi. session_ok.
    + rewrite Hh. apply newHp_range.
    + rewrite Hi. now apply updateInventory_NoDup.
  - destruct (takeCall k (storyCalls c)) as [[call rest] |] eqn:Htake;
      [| discriminate].
    destruct (takeCall_Forall _ _ _ _ _ Htake Hcalls) as [_ Hrest].
    destruct (takeCall_Forall _ _ _ _ _ Htake Hids) as [_ Hrest'].
    injection Hstep as <-. session_ok.
  - destruct (takeImage k (imageCalls c)); [| discriminate].
    injection Hstep as <-. session_ok.
  - destruct (takeImage k (imageCalls c)); [| discriminate].
    injection Hstep as <-. session_ok.
Qed.

Lemma run_ok (trace : list event) (c c' : Config) :
  run c trace = Some c' -> sessionOk c -> sessionOk c'.
Proof.
  revert c. induction trace as [| e trace IH]; simpl; intros c Hrun Hok.
  - injection Hrun as <-. assumption.
  - destruct (step c e) as [c1 |] eqn:Hstep; [| discriminate].
    eapply IH; [eassumption |]. eapply step_ok; eassumption.
Qed.

(** In every execution the health lies in [0, 100] and the inventory has
    no duplicates, as have the arguments captured by the pending calls. *)
Lemma reachable_ok (c : Config) : reachable c -> sessionOk c.
Proof.
  intros [trace Hrun]. eapply run_ok; [eassumption |].
  session_ok; [unfold INITIAL_HP; lia | constructor | constructor | constructor].
Qed.

(** A choice passes the health and the inventory of the state to
    [processTurn]; when the story of that call settles next, they are what
    the response is applied to. *)
Lemma chosen_turn_applies_to_state (c c1 : Config) (ch : Choice)
  (storyData : StoryEngineResponse) :
  reachable c ->
  step c (ClickChoice ch) = Some c1 ->
  exists c2,
    step c1 (StorySettles (nextCall c) storyData) = Some c2
    /\ hp (ui c2) = clamp (hp (ui c) + hpChange storyData) 0 100
    /\ inventory (ui c2) = newInv (inventory (ui c)) storyData.
Proof.
  intros Hreach. apply reachable_ok in Hreach as (_ & _ & _ & Hids).
  unfold step at 1. destruct (negb (offered c (ClickChoice ch))) eqn:Hoff;
    [discriminate |].
  apply negb_false_iff in Hoff. simpl in Hoff.
  apply andb_prop in Hoff as [_ Hturn].
  intros H. injection H as <-. unfold handleChoice.
  destruct (currentTurn (ui c)) as [t |]; [| discriminate].
  unfold step. simpl. rewrite (takeCall_newest _ _ _ _ Hids).
  pose proof (resume_hp (hp (ui c)) (inventory (ui c)) storyData
                (processTurn_start (ui c))) as Hh.
  pose proof (resume_inventory (hp (ui c)) (inventory (ui c)) storyData
                (processTurn_start (ui c))) as Hi.
  simpl. destruct (processTurn_resume _ _ _ _) as [s' request].
  eexists. split; [reflexivity |]. simpl in *.
  rewrite Hh, Hi. split; [apply newHp_clamp | reflexivity].
Qed.

(** No image is requested for a terminal turn: the pending image requests
    are those of before. *)
Lemma terminal_turn_requests_no_image (c c' : Config) (call : Call)
  (rest : list Call) (storyData : StoryEngineResponse) :
  takeCall (call_id call) (storyCalls c) = Some (call, rest) ->
  isTerminal (currentHp call) storyData = true ->
  step c (StorySettles (call_id call) storyData) = Some c' ->
  imageCalls c' = imageCalls c /\ mode (ui c') = GAMEOVER.
Proof.
  intros Htake Hterm. unfold step. simpl. rewrite Htake.
  unfold processTurn_resume. rewrite Hterm.
  intros Hs. injection Hs as <-. now split.
Qed.

(** *** The image continuation *)

Lemma step_ImageSettles (c c' : Config) (k : nat) (url : option string) :
  step c (ImageSettles k url) = Some c' ->
  ui c' = onImage url (ui c) /\ liveCall c' = liveCall c.
Proof.
  unfold step. simpl. destruct (takeImage k (imageCalls c)); [| discriminate].
  intros H. injection H as <-. now split.
Qed.

Lemma step_TurnThrows (c c' : Config) (k : nat) :
  step c (TurnThrows k) = Some c' ->
  ui c' = processTurn_catch (ui c)
  /\ alerts c' = alerts c ++ [criticalNotice].
Proof.
  unfold step. simpl.
  destruct (takeCall k (storyCalls c)) as [[call rest] |]; [| discriminate].
  intros H. injection H as <-. now split.
Qed.

(** C1, as the code has it.  A late image result is applied without any
    check of turn identity, to whatever the live turn is when it arrives:
    a cleared turn stays cleared, and a live turn, be it the requesting one
    or one that superseded it, keeps its text and choices and takes the
    result as its image. *)
Theorem late_image_patches_live_turn (c c' : Config) (k : nat)
  (url : option string) :
  step c (ImageSettles k url) = Some c' ->
  currentTurn (ui c')
  = match currentTurn (ui c) with
    | None => None
    | Some live => Some (mkTurn (text live) url (choices live))
    end.
Proof.
  intros Hstep. apply step_ImageSettles in Hstep as [-> _]. reflexivity.
Qed.

Lemma afterRestart_reachable :
  run initialConfig restartedSession = Some afterRestart.
Proof. reflexivity. Qed.

Lemma late_image_patches_live_turn_witness :
  exists c',
    step afterRestart (ImageSettles 0 (Some caveImage)) = Some c'
    /\ currentTurn (ui c')
       = Some (mkTurn "Despiertas en una nave." (Some caveImage)
                      (response_choices ship)).
Proof.
  eexists. split; [reflexivity |].
  exact (late_image_patches_live_turn afterRestart _ 0%nat (Some caveImage)
           eq_refl).
Defined.

(** Counterexample to C1 as stated: the image requested for the first turn
    of a game arrives after a reset and a new game, and becomes the image
    of the first turn of the new game. *)
Lemma stale_image_lands_on_newer_turn :
  run initialConfig restartedSession = Some afterRestart
  /\ liveCall afterRestart = Some 1%nat
  /\ currentTurn (ui afterRestart)
     = Some (mkTurn "Despiertas en una nave." None (response_choices ship))
  /\ (exists c',
        step afterRestart (ImageSettles 0 (Some caveImage)) = Some c'
        /\ currentTurn (ui c')
           = Some (mkTurn "Despiertas en una nave." (Some caveImage)
                          (response_choices ship)))
  /\ ~ stale_turn_guard.
Proof.
  repeat (split; [reflexivity |]).
  split; [eexists; split; reflexivity |].
  intros Hguard.
  assert (Hreach : reachable afterRestart)
    by (exists restartedSession; reflexivity).
  specialize (Hguard afterRestart 0%nat (Some caveImage) _ Hreach eq_refl).
  simpl in Hguard. discriminate Hguard. discriminate.
Qed.

(** C10.  If the live turn has been cleared when an image result arrives,
    the continuation leaves it cleared, on success and on failure; so it is
    after a reset. *)
Theorem late_image_keeps_turn_cleared (s : State) (url : option string) :
  currentTurn s = None ->
  currentTurn (onImage url s) = None
  /\ currentTurn (onImageError s) = None
  /\ currentTurn (onImage url (resetGame s)) = None.
Proof.
  intros H. unfold onImage, onImageError. simpl. rewrite H. repeat split.
Qed.

Lemma late_image_keeps_turn_cleared_witness :
  currentTurn (resetGame initialState) = None
  /\ currentTurn (onImage (Some caveImage) (resetGame initialState)) = None.
Proof.
  split; [reflexivity |].
  exact (proj1 (late_image_keeps_turn_cleared (resetGame initialState)
                  (Some caveImage) eq_refl)).
Defined.

(** *** Choice visibility *)

Section Visibility.

Variables (currentHp : Z) (currentInv : list string).
Variable storyData : StoryEngineResponse.
Variable s : State.

Lemma published_not_loading :
  isStoryLoading (fst (processTurn_resume currentHp currentInv storyData s))
  = false.
Proof.
  unfold processTurn_resume.
  destruct (isTerminal currentHp storyData);
    [| destruct (truthy (visualDescription storyData))]; reflexivity.
Qed.

Lemma published_no_image :
  exists t,
    currentTurn (fst (processTurn_resume currentHp currentInv storyData s))
    = Some t
    /\ imageUrl t = None.
Proof.
  unfold processTurn_resume.
  destruct (isTerminal currentHp storyData);
    [| destruct (truthy (visualDescription storyData))];
    eexists; split; reflexivity.
Qed.

(** C9.  The choices are visible exactly when no story is pending, the
    text reveal is complete and no image is pending.  A failed image call
    (the adapter resolves to no image, or the promise rejects) clears the
    image flag, leaves the turn without image, and the choices of the
    published turn are visible once the text reveal completes, in
    whichever order the two happen. *)
Theorem choices_visible_despite_image_failure :
  let published := fst (processTurn_resume currentHp currentInv storyData s) in
  areChoicesVisible s
  = negb (isStoryLoading s) && isTypingComplete s && negb (isImageLoading s)
  /\ generateSceneImage ImageApiThrows = Resolved None
  /\ isImageLoading (onImage None s) = false
  /\ isImageLoading (onImageError s) = false
  /\ currentTurn (onImage None published) = currentTurn published
  /\ currentTurn (onImageError published) = currentTurn published
  /\ areChoicesVisible (onTextComplete (onImage None published)) = true
  /\ areChoicesVisible (onImage None (onTextComplete published)) = true
  /\ areChoicesVisible (onTextComplete (onImageError published)) = true
  /\ areChoicesVisible (onImageError (onTextComplete published)) = true.
Proof.
  intros published.
  pose proof published_not_loading as Hl.
  destruct published_no_image as (t & Ht & Hu). fold published in Hl, Ht.
  unfold areChoicesVisible, onImage, onImageError, onTextComplete. simpl.
  rewrite Hl, Ht. destruct t as [tx im ch]. simpl in Hu. subst im.
  repeat split.
Qed.

End Visibility.

(** *** Failure of the orchestration *)

(** C8, as the code has it.  When the orchestration throws, the mode
    returns to [START], the user gets the blocking notice and the story
    flag is cleared.  Health, inventory and turn are not discarded by the
    handler: they are as they were when the failure was caught, and it is
    the next start of a game that initialises all three. *)
Theorem orchestration_failure_returns_to_start (c c' : Config) (k : nat) :
  step c (TurnThrows k) = Some c' ->
  mode (ui c') = START
  /\ alerts c' = alerts c ++ [criticalNotice]
  /\ isStoryLoading (ui c') = false
  /\ hp (ui c') = hp (ui c)
  /\ inventory (ui c') = inventory (ui c)
  /\ currentTurn (ui c') = currentTurn (ui c)
  /\ exists c'',
       step c' ClickStart = Some c''
       /\ hp (ui c'') = INITIAL_HP
       /\ inventory (ui c'') = []
       /\ currentTurn (ui c'') = None.
Proof.
  intros Hstep. apply step_TurnThrows in Hstep as [Hui Halerts].
  rewrite Hui. repeat split; try assumption.
  unfold step, offered. rewrite Hui. simpl. eexists. repeat split.
Qed.

Lemma orchestration_failure_returns_to_start_witness :
  exists c',
    step awaitingSecondTurn (TurnThrows 1) = Some c'
    /\ mode (ui c') = START
    /\ alerts c' = [criticalNotice]
    /\ hp (ui c') = 70.
Proof.
  eexists. split; [reflexivity |].
  pose proof (orchestration_failure_returns_to_start awaitingSecondTurn _
                1%nat eq_refl) as (Hmode & Halerts & _ & Hhp & _).
  split; [exact Hmode |]. split; [exact Halerts | exact Hhp].
Defined.

(** Counterexample to C8 as stated: after a first turn that cost 30 points
    and gave a torch, the second call throws; the session is at [START]
    with the health, the inventory and the turn of the first turn. *)
Lemma failure_keeps_previous_state :
  run initialConfig secondTurnChosen = Some awaitingSecondTurn
  /\ (exists c,
        step awaitingSecondTurn (TurnThrows 1) = Some c
        /\ mode (ui c) = START
        /\ hp (ui c) = 70
        /\ inventory (ui c) = ["antorcha"]
        /\ currentTurn (ui c)
           = Some (mkTurn "Entras en la cueva." (Some caveImage)
                          (response_choices cave)))
  /\ ~ failure_discards_state.
Proof.
  split; [reflexivity |].
  split; [eexists; repeat (split; [reflexivity |]); reflexivity |].
  intros Hclaim.
  assert (Hreach : reachable awaitingSecondTurn)
    by (exists secondTurnChosen; reflexivity).
  destruct (Hclaim awaitingSecondTurn 1%nat _ Hreach eq_refl) as [Hhp _].
  discriminate Hhp.
Qed.

(** ** Further properties of the adapters *)

Lemma firstInlineData_skips (n : nat) (data : string)
  (rest : list (option string)) :
  firstInlineData (repeat None n ++ Some data :: rest)
  = Some ("data:image/png;base64," ++ data)%string.
Proof. induction n as [| n IH]; simpl; [reflexivity | exact IH]. Qed.

Lemma firstInlineData_None (parts : list (option string)) :
  firstInlineData parts = None <-> Forall (eq None) parts.
Proof.
  induction parts as [| [d |] parts IH]; simpl.
  - split; [constructor | reflexivity].
  - split; [discriminate | intros H; inversion H; discriminate].
  - rewrite IH. split; [now constructor | intros H; now inversion H].
Qed.

(** X1.  The scene image is made from the first part that carries inline
    data, whatever comes after it and however many parts without data come
    before: the result is the PNG data URL of that part. *)
Theorem scene_image_is_first_inline_part (n : nat) (data : string)
  (rest : list (option string)) :
  generateSceneImage (ImageApiReturns (repeat None n ++ Some data :: rest))
  = Resolved (Some ("data:image/png;base64," ++ data)%string).
Proof. simpl. now rewrite firstInlineData_skips. Qed.

(** X2.  The image adapter never rejects, and it resolves to no image
    exactly when the call throws or no part of the answer carries inline
    data (in particular when the answer has no parts). *)
Theorem scene_image_absent_iff (o : ImageApiOutcome) :
  generateSceneImage o <> Rejected
  /\ (generateSceneImage o = Resolved None
      <-> o = ImageApiThrows
          \/ exists parts, o = ImageApiReturns parts /\ Forall (eq None) parts).
Proof.
  split; [destruct o; discriminate |].
  destruct o as [| parts]; simpl.
  - split; [now left | reflexivity].
  - split.
    + intros H. injection H as H. right. exists parts.
      split; [reflexivity | now apply firstInlineData_None].
    + intros [H | (parts' & H & Hall)]; [discriminate |].
      injection H as <-. f_equal. now apply firstInlineData_None.
Qed.

(** X3.  Whatever the call does and whatever the parser is, the story
    adapter resolves; the value is the fallback, or the value parsed from a
    text that is not empty. *)
Theorem story_result_provenance (JSON_parse : string -> option json)
  (o : ApiOutcome) :
  generateStorySegment JSON_parse o = Resolved fallbackResponse
  \/ exists response_text v,
       o = ApiReturns (Some response_text)
       /\ response_text <> ""
       /\ JSON_parse response_text = Some v
       /\ generateStorySegment JSON_parse o = Resolved v.
Proof.
  unfold generateStorySegment, generateStorySegment_try.
  destruct o as [| [t |]]; try (now left).
  unfold truthy. destruct (String.eqb_spec t ""); simpl; [now left |].
  destruct (JSON_parse t) as [v |] eqn:Hp; [| now left].
  right. exists t, v. repeat split; assumption.
Qed.

Lemma fallback_turn_is_ordinary_witness :
  0 < 70 <= 100
  /\ processTurn_resume 70 ["antorcha"] fallbackData
       (mkState PLAYING 70 ["antorcha"] None true false false)
     = (mkState PLAYING 70 ["antorcha"]
                (Some (mkTurn (narrative fallbackData) None
                              (response_choices fallbackData)))
                false true false,
        Some "foggy mystery void").
Proof.
  assert (H : 0 < 70 <= 100) by lia.
  split; [exact H |].
  exact (fallback_turn_is_ordinary 70 ["antorcha"]
           (mkState PLAYING 70 ["antorcha"] None true false false) H).
Defined.

(** ** Further properties of the inventory update *)

(** X5.  A response that names no item leaves the inventory exactly as it
    is, and one that only gains items keeps the whole inventory in order in
    front of the new items. *)
Theorem inventory_kept_when_nothing_lost (inv add : list string) :
  updateInventory inv [] [] = inv
  /\ updateInventory inv [] add
     = inv ++ firstOccurrences (filter (fun i => negb (includes inv i)) add).
Proof.
  assert (H : retained inv [] = inv)
    by (unfold retained; apply filter_all; reflexivity).
  unfold updateInventory. rewrite H. split; [reflexivity |].
  apply forEach_pushNew.
Qed.

(** X6.  Gaining wins over losing: an item named among the gained ones is
    in the new inventory even when it is also named among the lost ones,
    and an item named only among the lost ones is not. *)
Theorem gained_wins_over_lost (inv remove add : list string) (x : string) :
  In x remove ->
  (In x add -> In x (updateInventory inv remove add))
  /\ (~ In x add -> ~ In x (updateInventory inv remove add)).
Proof.
  intros Hr. rewrite updateInventory_In. tauto.
Qed.

Lemma gained_wins_over_lost_witness :
  In "llave" ["llave"]
  /\ In "llave" (updateInventory ["llave"; "soga"] ["llave"] ["llave"]).
Proof.
  assert (H : In "llave" ["llave"]) by (left; reflexivity).
  split; [exact H |].
  exact (proj1 (gained_wins_over_lost ["llave"; "soga"] ["llave"] ["llave"]
                  "llave" H) H).
Defined.

(** X7.  The inventory grows by at most the number of gained items. *)
Theorem inventory_growth_bounded (inv remove add : list string) :
  (List.length (updateInventory inv remove add)
   <= List.length inv + List.length add)%nat.
Proof.
  unfold updateInventory, retained.
  assert (Hfold : forall items acc,
             (List.length (fold_left pushNew items acc)
              <= List.length acc + List.length items)%nat).
  { induction items as [| i items IH]; intros acc; simpl; [lia |].
    specialize (IH (pushNew acc i)). unfold pushNew in *.
    destruct (includes acc i); [lia |].
    rewrite length_app in IH. simpl in IH. lia. }
  specialize (Hfold add (filter (fun item => negb (includes remove item)) inv)).
  pose proof (filter_length_le (fun item => negb (includes remove item)) inv).
  lia.
Qed.

(** ** Texts derived from the state *)

Lemma append_empty (a b : string) :
  (a ++ b)%string = "" -> a = "" /\ b = "".
Proof. destruct a; simpl; [now split | discriminate]. Qed.

Lemma concat_empty (inv : list string) :
  String.concat ", " inv = "" <-> inv = [] \/ inv = [""].
Proof.
  split.
  - destruct inv as [| x [| y rest]]; simpl; intros H.
    + now left.
    + right. now subst.
    + apply append_empty in H as [_ H]. discriminate H.
  - intros [-> | ->]; reflexivity.
Qed.

(** X8.  The inventory line of the prompt and of the game-over screen
    shows the fallback word for the empty inventory and also for an
    inventory that holds only an item with the empty name; every other
    inventory is shown as its items separated by a comma and a space. *)
Theorem inventory_line (fallback : string) (inv : list string) :
  joinOr fallback inv
  = if match inv with [] | [""] => true | _ => false end
    then fallback else String.concat ", " inv.
Proof.
  unfold joinOr, truthy.
  destruct (String.eqb_spec (String.concat ", " inv) "") as [He | Hne].
  - apply concat_empty in He as [-> | ->]; reflexivity.
  - destruct inv as [| x [| y rest]]; simpl in *; try congruence.
    + destruct x; [congruence | reflexivity].
    + destruct x; reflexivity.
Qed.


(** ** Theme selection *)

Section ThemeProperties.

Variable trim : string -> string.

(** X10.  Starting a game never stores the selected theme: the turns that
    follow a start are requested with the theme of the last suggestion
    that was clicked, which is empty when the theme was only typed. *)
Theorem later_turns_use_clicked_theme (ts ts' : Themes) (selected : string) :
  startWithTheme trim ts = Some (selected, ts') ->
  selected <> ""
  /\ choiceTheme ts' = theme ts
  /\ (trim (customTheme ts) <> "" -> selected = trim (customTheme ts)).
Proof.
  unfold startWithTheme, selectedTheme, choiceTheme, truthy.
  destruct (String.eqb_spec (trim (customTheme ts)) "") as [He | Hne]; simpl.
  - destruct (String.eqb_spec (theme ts) "") as [| Hne]; simpl;
      [discriminate |].
    intros H. injection H as <- <-. simpl.
    destruct (String.eqb_spec (theme ts) ""); [contradiction |].
    simpl. split; [assumption | split; [reflexivity | congruence]].
  - destruct (String.eqb_spec (trim (customTheme ts)) ""); [contradiction |].
    simpl. intros H. injection H as <- <-. simpl.
    split; [assumption | split; [| reflexivity]].
    now destruct (String.eqb (theme ts) "") eqn:E; simpl;
      [apply String.eqb_eq in E |].
Qed.

(** X11.  A game does not start without a theme: the start handler
    returns at once exactly when the typed text is blank and no suggestion
    has been clicked. *)
Theorem no_start_without_theme (ts : Themes) :
  startWithTheme trim ts = None
  <-> trim (customTheme ts) = "" /\ theme ts = "".
Proof.
  unfold startWithTheme, selectedTheme, truthy.
  destruct (String.eqb_spec (trim (customTheme ts)) "") as [He | Hne]; simpl.
  - destruct (String.eqb_spec (theme ts) ""); simpl.
    + split; [now split | reflexivity].
    + split; [discriminate | intros [_ H]; contradiction].
  - destruct (String.eqb_spec (trim (customTheme ts)) ""); [contradiction |].
    simpl. split; [discriminate | intros [H _]; contradiction].
Qed.

End ThemeProperties.

Lemma later_turns_use_clicked_theme_witness :
  startWithTheme trimAscii (typeTheme " Piratas " initialThemes)
  = Some ("Piratas", mkThemes "" "")
  /\ choiceTheme (mkThemes "" "") = "".
Proof.
  split; [reflexivity |].
  exact (proj1 (proj2
           (later_turns_use_clicked_theme trimAscii
              (typeTheme " Piratas " initialThemes) (mkThemes "" "")
              "Piratas" eq_refl))).
Defined.

(** ** The menu of suggested themes *)

Lemma THEME_POOL_NoDup : NoDup THEME_POOL.
Proof.
  unfold THEME_POOL.
  repeat (constructor; [simpl; intuition discriminate |]). constructor.
Qed.

(** X12.  However the random sort orders the pool, the menu holds four
    themes, all from the pool and no two the same. *)
Theorem suggested_themes_distinct (shuffled : list string) :
  Permutation THEME_POOL shuffled ->
  List.length (suggestedThemes shuffled) = 4%nat
  /\ NoDup (suggestedThemes shuffled)
  /\ incl (suggestedThemes shuffled) THEME_POOL.
Proof.
  intros Hperm. unfold suggestedThemes. repeat split.
  - rewrite length_firstn. apply Permutation_length in Hperm.
    rewrite <- Hperm. reflexivity.
  - assert (Hnd : NoDup shuffled)
      by (eapply Permutation_NoDup; [exact Hperm | apply THEME_POOL_NoDup]).
    rewrite <- (firstn_skipn 4 shuffled) in Hnd.
    now apply NoDup_app_remove_r in Hnd.
  - intros t Ht. apply Permutation_sym in Hperm.
    eapply Permutation_in; [exact Hperm |].
    rewrite <- (firstn_skipn 4 shuffled). apply in_or_app. now left.
Qed.

Lemma suggested_themes_distinct_witness :
  Permutation THEME_POOL (rev THEME_POOL)
  /\ List.length (suggestedThemes (rev THEME_POOL)) = 4%nat.
Proof.
  assert (H : Permutation THEME_POOL (rev THEME_POOL))
    by apply Permutation_rev.
  split; [exact H |].
  exact (proj1 (suggested_themes_distinct (rev THEME_POOL) H)).
Defined.

(** ** Further properties of the session *)

(** What a step is, event by event. *)
Lemma step_cases (c c' : Config) (e : event) :
  step c e = Some c' ->
  match e with
  | ClickStart =>
      mode (ui c) = START /\ isStoryLoading (ui c) = false
      /\ c' = callProcessTurn INITIAL_HP []
                (mkConfig (handleStartGame (ui c)) (storyCalls c)
                          (imageCalls c) (nextCall c) None (alerts c))
  | ClickChoice ch =>
      mode (ui c) = PLAYING /\ areChoicesVisible (ui c) = true
      /\ c' = callProcessTurn (hp (ui c)) (inventory (ui c)) c
  | ClickReset =>
      mode (ui c) <> START
      /\ c' = mkConfig (resetGame (ui c)) (storyCalls c) (imageCalls c)
                       (nextCall c) None (alerts c)
  | TextRevealed =>
      c' = mkConfig (onTextComplete (ui c)) (storyCalls c) (imageCalls c)
                    (nextCall c) (liveCall c) (alerts c)
  | StorySettles k storyData =>
      exists call rest,
        takeCall k (storyCalls c) = Some (call, rest)
        /\ c' = let result :=
                  processTurn_resume (currentHp call) (currentInv call)
                                     storyData (ui c) in
                mkConfig (fst result) rest
                  (match snd result with
                   | Some _ => imageCalls c ++ [k]
                   | None => imageCalls c
                   end)
                  (nextCall c) (Some k) (alerts c)
  | TurnThrows k =>
      exists call rest,
        takeCall k (storyCalls c) = Some (call, rest)
        /\ c' = mkConfig (processTurn_catch (ui c)) rest (imageCalls c)
                         (nextCall c) (liveCall c)
                         (alerts c ++ [criticalNotice])
  | ImageSettles k url =>
      exists rest,
        takeImage k (imageCalls c) = Some rest
        /\ c' = mkConfig (onImage url (ui c)) (storyCalls c) rest
                         (nextCall c) (liveCall c) (alerts c)
  | ImageRejects k =>
      exists rest,
        takeImage k (imageCalls c) = Some rest
        /\ c' = mkConfig (onImageError (ui c)) (storyCalls c) rest
                         (nextCall c) (liveCall c) (alerts c)
  end.
Proof.
  unfold step. destruct (negb (offered c e)) eqn:Hoff; [discriminate |].
  apply negb_false_iff in Hoff. destruct e; simpl in *; intros Hstep.
  - apply andb_prop in Hoff as [Hm Hl]. apply negb_true_iff in Hl.
    injection Hstep as <-. destruct (mode (ui c)); try discriminate.
    now repeat split.
  - apply andb_prop in Hoff as [Hoff Ht]. apply andb_prop in Hoff as [Hm Hv].
    injection Hstep as <-. unfold handleChoice.
    destruct (currentTurn (ui c)); [| discriminate].
    destruct (mode (ui c)); try discriminate. now repeat split.
  - injection Hstep as <-. split; [| reflexivity].
    intros Hm. rewrite Hm in Hoff. discriminate.
  - now injection Hstep as <-.
  - destruct (takeCall k (storyCalls c)) as [[call rest] |]; [| discriminate].
    exists call, rest. split; [reflexivity |].
    destruct (processTurn_resume _ _ _ _) as [s' request].
    now injection Hstep as <-.
  - destruct (takeCall k (storyCalls c)) as [[call rest] |]; [| discriminate].
    exists call, rest. split; [reflexivity |]. now injection Hstep as <-.
  - destruct (takeImage k (imageCalls c)) as [rest |]; [| discriminate].
    exists rest. split; [reflexivity |]. now injection Hstep as <-.
  - destruct (takeImage k (imageCalls c)) as [rest |]; [| discriminate].
    exists rest. split; [reflexivity |]. now injection Hstep as <-.
Qed.

(** A property kept by every step holds along every execution. *)
Lemma run_invariant (P : Config -> Prop) :
  (forall c e c', step c e = Some c' -> P c -> P c') ->
  forall trace c c', run c trace = Some c' -> P c -> P c'.
Proof.
  intros Hstep. induction trace as [| e trace IH]; simpl; intros c c' Hrun Hc.
  - now injection Hrun as <-.
  - destruct (step c e) as [c1 |] eqn:He; [| discriminate].
    eapply IH; [exact Hrun |]. eapply Hstep; eassumption.
Qed.

Lemma resume_mode (h : Z) (inv : list string) (r : StoryEngineResponse)
  (s : State) :
  mode (fst (processTurn_resume h inv r s))
  = if isTerminal h r then GAMEOVER else mode s.
Proof.
  unfold processTurn_resume.
  destruct (isTerminal h r); [| destruct (truthy (visualDescription r))];
    reflexivity.
Qed.

Lemma resume_turn (h : Z) (inv : list string) (r : StoryEngineResponse)
  (s : State) :
  currentTurn (fst (processTurn_resume h inv r s))
  = Some (mkTurn (narrative r) None
                 (if isTerminal h r then [] else response_choices r)).
Proof.
  unfold processTurn_resume.
  destruct (isTerminal h r); [| destruct (truthy (visualDescription r))];
    reflexivity.
Qed.

Lemma resume_flags (h : Z) (inv : list string) (r : StoryEngineResponse)
  (s : State) :
  let result := processTurn_resume h inv r s in
  isStoryLoading (fst result) = false
  /\ isTypingComplete (fst result) = isTypingComplete s
  /\ match snd result with
     | Some _ => isImageLoading (fst result) = true
     | None => isImageLoading (fst result) = isImageLoading s
     end.
Proof.
  unfold processTurn_resume.
  destruct (isTerminal h r); [| destruct (truthy (visualDescription r))];
    now repeat split.
Qed.



Lemma app_not_nil {A} (l : list A) (x : A) : l ++ [x] <> [].
Proof. destruct l; discriminate. Qed.

Lemma flags_pending_step (c c' : Config) (e : event) :
  step c e = Some c' ->
  (isStoryLoading (ui c) = true -> storyCalls c <> [])
  /\ (isImageLoading (ui c) = true -> imageCalls c <> []) ->
  (isStoryLoading (ui c') = true -> storyCalls c' <> [])
  /\ (isImageLoading (ui c') = true -> imageCalls c' <> []).
Proof.
  intros Hstep [Hs Hi]. apply step_cases in Hstep. destruct e.
  - destruct Hstep as (_ & _ & ->). simpl.
    split; [intros _; apply app_not_nil | discriminate].
  - destruct Hstep as (_ & _ & ->). simpl.
    split; [intros _; apply app_not_nil | discriminate].
  - destruct Hstep as (_ & ->). simpl. split; discriminate.
  - subst c'. simpl. now split.
  - destruct Hstep as (call & rest & _ & ->). cbv zeta.
    pose proof (resume_flags (currentHp call) (currentInv call) storyData
                  (ui c)) as (Hl & _ & Himg).
    cbv zeta in Hl, Himg. simpl. rewrite Hl. split; [discriminate |].
    destruct (snd (processTurn_resume _ _ _ _)).
    + intros _. apply app_not_nil.
    + rewrite Himg. exact Hi.
  - destruct Hstep as (call & rest & _ & ->). simpl.
    split; [discriminate | exact Hi].
  - destruct Hstep as (rest & _ & ->). simpl. split; [exact Hs | discriminate].
  - destruct Hstep as (rest & _ & ->). simpl. split; [exact Hs | discriminate].
Qed.

(** X14.  In every execution a loading flag that is set has a request in
    flight behind it: while the story flag is set a call of [processTurn]
    is pending, and while the image flag is set an image request is. *)
Theorem loading_flags_have_pending_requests (trace : list event)
  (c : Config) :
  run initialConfig trace = Some c ->
  (isStoryLoading (ui c) = true -> storyCalls c <> [])
  /\ (isImageLoading (ui c) = true -> imageCalls c <> []).
Proof.
  intros Hrun.
  apply (run_invariant
           (fun c => (isStoryLoading (ui c) = true -> storyCalls c <> [])
                     /\ (isImageLoading (ui c) = true -> imageCalls c <> []))
           (fun c e c' => flags_pending_step c c' e)
           trace initialConfig c Hrun).
  simpl. split; discriminate.
Qed.

Lemma loading_flags_have_pending_requests_witness :
  run initialConfig restartedSession = Some afterRestart
  /\ (isImageLoading (ui afterRestart) = true -> imageCalls afterRestart <> []).
Proof.
  split; [reflexivity |].
  exact (proj2 (loading_flags_have_pending_requests restartedSession
                  afterRestart eq_refl)).
Defined.

(** X15.  A reset puts the state back to the initial one but cancels
    nothing: the pending calls and image requests stay, and a story that
    settles afterwards is applied as usual, to the health and inventory its
    call captured; it publishes its turn on the start screen, or ends the
    game from there. *)
Theorem reset_cancels_nothing (c c1 : Config) :
  step c ClickReset = Some c1 ->
  ui c1 = initialState
  /\ storyCalls c1 = storyCalls c
  /\ imageCalls c1 = imageCalls c
  /\ forall k call rest storyData,
       takeCall k (storyCalls c) = Some (call, rest) ->
       exists c2,
         step c1 (StorySettles k storyData) = Some c2
         /\ hp (ui c2) = newHp (currentHp call) storyData
         /\ inventory (ui c2) = newInv (currentInv call) storyData
         /\ currentTurn (ui c2)
            = Some (mkTurn (narrative storyData) None
                      (if isTerminal (currentHp call) storyData then []
                       else response_choices storyData))
         /\ mode (ui c2)
            = if isTerminal (currentHp call) storyData then GAMEOVER
              else START.
Proof.
  intros Hstep. apply step_cases in Hstep as (_ & ->). simpl.
  repeat split.
  intros k call rest storyData Htake. unfold step. simpl. rewrite Htake.
  pose proof (resume_hp (currentHp call) (currentInv call) storyData
                (resetGame (ui c))) as Hh.
  pose proof (resume_inventory (currentHp call) (currentInv call) storyData
                (resetGame (ui c))) as Hi.
  pose proof (resume_turn (currentHp call) (currentInv call) storyData
                (resetGame (ui c))) as Ht.
  pose proof (resume_mode (currentHp call) (currentInv call) storyData
                (resetGame (ui c))) as Hm.
  destruct (processTurn_resume _ _ _ _) as [s' request]. simpl in *.
  eexists. split; [reflexivity |]. simpl. now repeat split.
Qed.

Lemma reset_cancels_nothing_witness :
  exists c1,
    step awaitingSecondTurn ClickReset = Some c1
    /\ ui c1 = initialState
    /\ storyCalls c1 = storyCalls awaitingSecondTurn.
Proof.
  eexists. split; [reflexivity |].
  pose proof (reset_cancels_nothing awaitingSecondTurn _ eq_refl)
    as (Hui & Hcalls & _).
  split; [exact Hui | exact Hcalls].
Defined.

(** X16.  The mode changes only in these ways: a start makes it
    [PLAYING], a reset and a failure of the orchestration make it [START],
    a story that settles makes it [GAMEOVER] or leaves it; the image
    results, the text reveal and a choice never change it. *)
Theorem mode_transitions (c c' : Config) (e : event) :
  step c e = Some c' ->
  match e with
  | ClickStart => mode (ui c') = PLAYING
  | ClickReset | TurnThrows _ => mode (ui c') = START
  | StorySettles _ _ =>
      mode (ui c') = GAMEOVER \/ mode (ui c') = mode (ui c)
  | ClickChoice _ | TextRevealed | ImageSettles _ _ | ImageRejects _ =>
      mode (ui c') = mode (ui c)
  end.
Proof.
  intros Hstep. apply step_cases in Hstep. destruct e.
  - now destruct Hstep as (_ & _ & ->).
  - now destruct Hstep as (_ & _ & ->).
  - now destruct Hstep as (_ & ->).
  - now subst c'.
  - destruct Hstep as (call & rest & _ & ->). cbv zeta. simpl.
    rewrite resume_mode. destruct (isTerminal _ _); [now left | now right].
  - now destruct Hstep as (call & rest & _ & ->).
  - now destruct Hstep as (rest & _ & ->).
  - now destruct Hstep as (rest & _ & ->).
Qed.

Lemma mode_transitions_witness :
  exists c',
    step awaitingSecondTurn (TurnThrows 1) = Some c' /\ mode (ui c') = START.
Proof.
  eexists. split; [reflexivity |].
  exact (mode_transitions awaitingSecondTurn _ (TurnThrows 1) eq_refl).
Defined.

(** X17.  Health and inventory change only in these ways: a start and a
    reset set them to 100 and to the empty inventory, a story that settles
    sets them from the values its call captured; no other event touches
    them. *)
Theorem health_and_inventory_changes (c c' : Config) (e : event) :
  step c e = Some c' ->
  match e with
  | ClickStart | ClickReset =>
      hp (ui c') = 100 /\ inventory (ui c') = []
  | StorySettles k storyData =>
      exists call rest,
        takeCall k (storyCalls c) = Some (call, rest)
        /\ hp (ui c') = newHp (currentHp call) storyData
        /\ inventory (ui c') = newInv (currentInv call) storyData
  | ClickChoice _ | TextRevealed | TurnThrows _
  | ImageSettles _ _ | ImageRejects _ =>
      hp (ui c') = hp (ui c) /\ inventory (ui c') = inventory (ui c)
  end.
Proof.
  intros Hstep. apply step_cases in Hstep. destruct e.
  - now destruct Hstep as (_ & _ & ->).
  - now destruct Hstep as (_ & _ & ->).
  - now destruct Hstep as (_ & ->).
  - now subst c'.
  - destruct Hstep as (call & rest & Htake & ->). exists call, rest.
    cbv zeta. simpl. rewrite resume_hp, resume_inventory. now repeat split.
  - now destruct Hstep as (call & rest & _ & ->).
  - now destruct Hstep as (rest & _ & ->).
  - now destruct Hstep as (rest & _ & ->).
Qed.

Lemma health_and_inventory_changes_witness :
  exists c',
    step awaitingSecondTurn (TurnThrows 1) = Some c'
    /\ hp (ui c') = hp (ui awaitingSecondTurn).
Proof.
  eexists. split; [reflexivity |].
  exact (proj1 (health_and_inventory_changes awaitingSecondTurn _
                  (TurnThrows 1) eq_refl)).
Defined.

(** X18.  After a start or a choice the player cannot submit again at
    once: in the state that follows, neither the start button nor any
    choice button is offered. *)
Theorem no_double_submission (c c' : Config) (e : event) (ch' : Choice) :
  step c e = Some c' ->
  e = ClickStart \/ (exists ch, e = ClickChoice ch) ->
  offered c' ClickStart = false /\ offered c' (ClickChoice ch') = false.
Proof.
  intros Hstep [-> | [ch ->]]; apply step_cases in Hstep.
  - destruct Hstep as (_ & _ & ->). now split.
  - destruct Hstep as (Hm & _ & ->). unfold offered. simpl. rewrite Hm.
    now split.
Qed.

Lemma no_double_submission_witness :
  exists c',
    step initialConfig ClickStart = Some c'
    /\ offered c' ClickStart = false.
Proof.
  eexists. split; [reflexivity |].
  exact (proj1 (no_double_submission initialConfig _ ClickStart
                  (mkChoice "a" "Avanzar") eq_refl (or_introl eq_refl))).
Defined.

(** X19.  The game-over screen names death by wounds, with its fixed
    "HP: 0", exactly when the health is 0: in no execution is that cause
    shown beside another health, or a health of 0 beside the other cause. *)
Theorem death_cause_is_truthful (trace : list event) (c : Config) :
  run initialConfig trace = Some c ->
  gameOverCause (ui c) = deathCause <-> hp (ui c) = 0.
Proof.
  intros Hrun.
  destruct (reachable_ok c (ex_intro _ trace Hrun)) as (Hhp & _).
  unfold gameOverCause, deathCause.
  destruct (Z.leb_spec (hp (ui c)) 0) as [Hle | Hgt]; split; intros Heq;
    try reflexivity; try lia; discriminate Heq.
Qed.

Lemma death_cause_is_truthful_witness :
  run initialConfig secondTurnChosen = Some awaitingSecondTurn
  /\ (gameOverCause (ui awaitingSecondTurn) = deathCause
      <-> hp (ui awaitingSecondTurn) = 0).
Proof.
  split; [reflexivity |].
  exact (death_cause_is_truthful secondTurnChosen awaitingSecondTurn eq_refl).
Defined.

Lemma run_alerts (trace : list event) (c c' : Config) :
  run c trace = Some c' ->
  alerts c'
  = alerts c
    ++ repeat criticalNotice
         (List.length
            (filter (fun e => match e with TurnThrows _ => true | _ => false end)
                    trace)).
Proof.
  revert c. induction trace as [| e trace IH]; simpl; intros c Hrun.
  - injection Hrun as <-. now rewrite app_nil_r.
  - destruct (step c e) as [c1 |] eqn:Hstep; [| discriminate].
    rewrite (IH c1 Hrun). apply step_cases in Hstep.
    destruct e; simpl.
    + now destruct Hstep as (_ & _ & ->).
    + now destruct Hstep as (_ & _ & ->).
    + now destruct Hstep as (_ & ->).
    + now subst c1.
    + now destruct Hstep as (call & rest & _ & ->).
    + destruct Hstep as (call & rest & _ & ->). simpl.
      now rewrite <- app_assoc.
    + now destruct Hstep as (rest & _ & ->).
    + now destruct Hstep as (rest & _ & ->).
Qed.

(** X20.  The only notice the session ever shows is the critical one, once
    for each failure of the orchestration and for nothing else: no story
    that settles, no image result and no action of the player raises it. *)
Theorem notices_count_failures (trace : list event) (c : Config) :
  run initialConfig trace = Some c ->
  alerts c
  = repeat criticalNotice
      (List.length
         (filter (fun e => match e with TurnThrows _ => true | _ => false end)
                 trace)).
Proof. intros Hrun. now rewrite (run_alerts trace initialConfig c Hrun). Qed.

Lemma notices_count_failures_witness :
  run initialConfig secondTurnChosen = Some awaitingSecondTurn
  /\ alerts awaitingSecondTurn = [].
Proof.
  split; [reflexivity |].
  exact (notices_count_failures secondTurnChosen awaitingSecondTurn eq_refl).
Defined.

Lemma takeImage_found (k : nat) (l : list nat) :
  In k l -> exists rest, takeImage k l = Some rest.
Proof.
  induction l as [| j l IH]; simpl; [contradiction |].
  intros Hin. destruct (Nat.eqb_spec j k) as [-> | Hne]; [eauto |].
  destruct Hin as [-> | Hin]; [contradiction |].
  destruct (IH Hin) as [rest ->]. eauto.
Qed.

Lemma takeImage_others (k j : nat) (l rest : list nat) :
  takeImage k l = Some rest -> j <> k -> In j l -> In j rest.
Proof.
  revert rest. induction l as [| i l IH]; simpl; intros rest Htake Hne Hin;
    [contradiction |].
  destruct (Nat.eqb_spec i k) as [-> | Hik].
  - injection Htake as <-. destruct Hin as [-> | Hin];
      [contradiction | assumption].
  - destruct (takeImage k l) as [rest' |]; [| discriminate].
    injection Htake as <-. destruct Hin as [-> | Hin]; [now left | right].
    now apply IH.
Qed.

Lemma choice_listed (ch : Choice) (l : list Choice) :
  In ch l -> existsb (choice_eqb ch) l = true.
Proof.
  intros Hin. apply existsb_exists. exists ch. split; [assumption |].
  unfold choice_eqb. now rewrite !String.eqb_refl.
Qed.

(** X21.  A turn of a game in play runs to its choices: when the story of
    a pending call settles with a response that does not end the game and
    describes a scene, then once the image request has settled, with an
    image or without, and the text is revealed, every choice of the
    response is offered to the player. *)
Theorem turn_runs_to_its_choices (c : Config) (call : Call)
  (rest : list Call) (storyData : StoryEngineResponse)
  (url : option string) (ch : Choice) :
  mode (ui c) = PLAYING ->
  takeCall (call_id call) (storyCalls c) = Some (call, rest) ->
  isTerminal (currentHp call) storyData = false ->
  truthy (visualDescription storyData) = true ->
  In ch (response_choices storyData) ->
  exists c',
    run c [ StorySettles (call_id call) storyData;
            ImageSettles (call_id call) url; TextRevealed ] = Some c'
    /\ offered c' (ClickChoice ch) = true
    /\ currentTurn (ui c')
       = Some (mkTurn (narrative storyData) url (response_choices storyData)).
Proof.
  intros Hmode Htake Hterm Hdesc Hin.
  unfold run, step. simpl. rewrite Htake.
  unfold processTurn_resume. rewrite Hterm, Hdesc. simpl.
  destruct (takeImage_found (call_id call)
              (imageCalls c ++ [call_id call])) as [rest' ->].
  { apply in_or_app. right. now left. }
  eexists. split; [reflexivity |].
  unfold offered, areChoicesVisible. simpl. rewrite Hmode. simpl.
  split; [now apply choice_listed | reflexivity].
Qed.

Lemma turn_runs_to_its_choices_witness :
  exists c',
    run awaitingSecondTurn
        [ StorySettles 1 ship; ImageSettles 1 None; TextRevealed ] = Some c'
    /\ offered c' (ClickChoice (mkChoice "b" "Dormir")) = true.
Proof.
  destruct (turn_runs_to_its_choices awaitingSecondTurn
              (mkCall 1 70 ["antorcha"]) [] ship None (mkChoice "b" "Dormir")
              eq_refl eq_refl eq_refl eq_refl
              (or_intror (or_introl eq_refl)))
    as (c' & Hrun & Hoff & _).
  exists c'. split; [exact Hrun | exact Hoff].
Defined.

(** X22.  Any image result clears the image flag, also a late one: if the
    text is revealed and no story is loading, the choices become visible
    although every other image request, the one of the live turn included,
    is still pending. *)
Theorem any_image_result_unblocks_choices (c c' : Config) (k : nat)
  (url : option string) :
  step c (ImageSettles k url) = Some c' ->
  isStoryLoading (ui c) = false ->
  isTypingComplete (ui c) = true ->
  areChoicesVisible (ui c') = true
  /\ forall j, j <> k -> In j (imageCalls c) -> In j (imageCalls c').
Proof.
  intros Hstep Hl Ht. apply step_cases in Hstep as (rest & Htake & ->).
  unfold areChoicesVisible. simpl. rewrite Hl, Ht. split; [reflexivity |].
  intros j Hne Hin. eapply takeImage_others; eassumption.
Qed.

Lemma any_image_result_unblocks_choices_witness :
  exists c',
    step restartRevealed (ImageSettles 0 (Some caveImage)) = Some c'
    /\ areChoicesVisible (ui c') = true
    /\ In 1%nat (imageCalls c').
Proof.
  eexists. split; [reflexivity |].
  pose proof (any_image_result_unblocks_choices restartRevealed _ 0%nat
                (Some caveImage) eq_refl eq_refl eq_refl) as [Hvis Hpending].
  split; [exact Hvis |].
  apply (Hpending 1%nat); [discriminate | right; left; reflexivity].
Defined.
